(** * Sorted-index search: [sortedIndex] and [sortedIndexOf]

    A shallow embedding of the two JavaScript functions of the
    documentation entry on [_.sortedIndexOf()], and the properties of the
    lower-bound search they implement.

    - JavaScript numbers used as indices are integers far below 2^53, so
      they are modelled as [Z]; [Math.floor((high - low) / 2)] is [Z.div].
    - An array is a [list]; [array[i]] is [array_get], which answers [None]
      where JavaScript answers [undefined] (index out of range).
    - The elements belong to one type [T] on which [<=] is a total order
      and [===] is identity (numbers other than NaN, strings): the
      interface [JsOrdered].  [undefined] is not a value of [T].
    - [sortedIndex] recurses on a range that need not shrink when it is
      called with an arbitrary [_range], so the embedding counts the calls
      with a fuel argument: [None] means the fuel ran out. *)

From Stdlib Require Import ZArith List Lia Bool.
From ExtLib Require Import Structures.Monad Structures.MonadState.
From ExtLib Require Import Data.Monads.StateMonad.
Import ListNotations.
Import MonadNotation.

Local Open Scope Z_scope.

(** ** The element type *)

Class JsOrdered (T : Type) : Type := {
  lte : T -> T -> bool;                 (* a <= b *)
  strictEq : T -> T -> bool;            (* a === b *)
  lte_total : forall a b, lte a b = true \/ lte b a = true;
  lte_trans : forall a b c, lte a b = true -> lte b c = true -> lte a c = true;
  lte_antisym : forall a b, lte a b = true -> lte b a = true -> a = b;
  strictEq_eq : forall a b, strictEq a b = true <-> a = b
}.

#[export] Program Instance JsOrdered_Z : JsOrdered Z := {
  lte := Z.leb;
  strictEq := Z.eqb
}.
Next Obligation. lia. Qed.
Next Obligation. lia. Qed.
Next Obligation. lia. Qed.
Next Obligation. apply Z.eqb_eq. Qed.

Section Model.

Context {T : Type} `{JsOrdered T}.

(** ** Arrays *)

Definition array_length (array : list T) : Z := Z.of_nat (length array).

(** [array[i]]: [None] stands for [undefined]. *)
Definition array_get (array : list T) (i : Z) : option T :=
  if i <? 0 then None else nth_error array (Z.to_nat i).

(** [value <= x] where [x] was read from the array: comparing with
    [undefined] is false. *)
Definition lteU (value : T) (x : option T) : bool :=
  match x with
  | Some y => lte value y
  | None => false
  end.

(** [x === value] where [x] was read from the array: [undefined] is not
    strictly equal to a value of [T]. *)
Definition strictEqU (x : option T) (value : T) : bool :=
  match x with
  | Some y => strictEq y value
  | None => false
  end.

(** ** sortedIndex *)

(** [const midPoint = low + Math.floor((high - low) / 2)] *)
Definition midPoint (low high : Z) : Z := low + (high - low) / 2.

(** [const newRange = value <= array[midPoint] ? [low, midPoint]
                                               : [midPoint + 1, high]] *)
Definition newRange (array : list T) (value : T) (low high : Z) : Z * Z :=
  if lteU value (array_get array (midPoint low high))
  then (low, midPoint low high)
  else (midPoint low high + 1, high).

(** [const [low, high] = _range ?? [0, array.length]] *)
Definition rangeOrDefault (array : list T) (_range : option (Z * Z)) : Z * Z :=
  match _range with
  | Some r => r
  | None => (0, array_length array)
  end.

Fixpoint sortedIndex (fuel : nat) (array : list T) (value : T)
    (_range : option (Z * Z)) : option Z :=
  match fuel with
  | O => None
  | S fuel' =>
      let '(low, high) := rangeOrDefault array _range in
      if low =? high then Some low
      else sortedIndex fuel' array value (Some (newRange array value low high))
  end.

(** ** sortedIndexOf *)

Definition sortedIndexOf (fuel : nat) (array : list T) (value : T) : option Z :=
  match sortedIndex fuel array value None with
  | Some index =>
      Some (if strictEqU (array_get array index) value then index else -1)
  | None => None
  end.

(** ** The calls of a run *)

(** The ranges of the successive invocations of [sortedIndex], the
    outermost first. *)
Fixpoint invocations (fuel : nat) (array : list T) (value : T)
    (_range : option (Z * Z)) : list (Z * Z) :=
  match fuel with
  | O => []
  | S fuel' =>
      let '(low, high) := rangeOrDefault array _range in
      (low, high) ::
      (if low =? high then []
       else invocations fuel' array value (Some (newRange array value low high)))
  end.

(** Calls that suffice for an array: one per halving of its length, and
    the final one on the empty range. *)
Definition callDepth (array : list T) : nat :=
  S (S (Z.to_nat (Z.log2 (array_length array)))).

(** ** The store-threading model

    The same two functions over a store that holds the array object, every
    access to the array being an operation on the store. *)

Definition readLength : state (list T) Z :=
  gets array_length.

Definition readAt (i : Z) : state (list T) (option T) :=
  gets (fun array => array_get array i).

Local Open Scope monad_scope.

Fixpoint sortedIndexM (fuel : nat) (value : T) (_range : option (Z * Z))
    : state (list T) (option Z) :=
  match fuel with
  | O => ret None
  | S fuel' =>
      r <- match _range with
           | Some r => ret r
           | None => n <- readLength ;; ret (0, n)
           end ;;
      let '(low, high) := r in
      if low =? high then ret (Some low)
      else
        x <- readAt (midPoint low high) ;;
        sortedIndexM fuel' value
          (Some (if lteU value x
                 then (low, midPoint low high)
                 else (midPoint low high + 1, high)))
  end.

Definition sortedIndexOfM (fuel : nat) (value : T) : state (list T) (option Z) :=
  r <- sortedIndexM fuel value None ;;
  match r with
  | Some index =>
      x <- readAt index ;;
      ret (Some (if strictEqU x value then index else -1))
  | None => ret None
  end.

(** ** Vocabulary of the specification *)

(** Ascending: each element is [<=] the next one. *)
Fixpoint sortedb (array : list T) : bool :=
  match array with
  | [] => true
  | x :: rest =>
      match rest with
      | [] => true
      | y :: _ => lte x y && sortedb rest
      end
  end.

Definition sorted (array : list T) : Prop := sortedb array = true.

Definition strictlyLess (x v : T) : Prop := lte x v = true /\ x <> v.

(** Every element before [i] is strictly less than [v], every element at
    [i] or after it is greater than or equal to [v]. *)
Definition partitioned (array : list T) (v : T) (i : Z) : Prop :=
  (forall j x, 0 <= j < i -> array_get array j = Some x -> strictlyLess x v) /\
  (forall j x, i <= j -> array_get array j = Some x -> lte v x = true).

(** [i] is the lowest index at which [v] occurs. *)
Definition firstOccurrence (array : list T) (v : T) (i : Z) : Prop :=
  array_get array i = Some v /\
  forall j, 0 <= j < i -> array_get array j <> Some v.

(** The number of elements of [array] equal to [v]. *)
Definition occurrences (array : list T) (v : T) : nat :=
  length (filter (fun x => strictEq x v) array).

(** Calls that suffice for a call on the range [low, high]. *)
Definition rangeDepth (low high : Z) : nat :=
  S (S (Z.to_nat (Z.log2 (high - low)))).

(** The number of elements of [array] strictly less than [v]. *)
Definition countLess (array : list T) (v : T) : Z :=
  Z.of_nat (length (filter (fun x => negb (lte v x)) array)).

(** The array with [value] put in before position [i], as
    [array.splice(i, 0, value)] leaves it.  Not a function of the
    documentation entry: it states what the index is for. *)
Definition insertAt (array : list T) (i : Z) (value : T) : list T :=
  firstn (Z.to_nat i) array ++ value :: skipn (Z.to_nat i) array.

End Model.

(** The array of the scenarios. *)
Definition example_array : list Z := [10; 20; 30; 30; 40].

(** An array that is not sorted. *)
Definition unsorted_array : list Z := [30; 10; 20].

(** * Properties *)

Section Properties.

Context {T : Type} `{JsOrdered T}.

Implicit Types (array : list T) (value v w : T) (low high i j : Z).

(** ** The order *)

Lemma lte_refl (a : T) : lte a a = true.
Proof. destruct (lte_total a a); assumption. Qed.

Lemma not_lte_strictlyLess (x v : T) : lte v x = false <-> strictlyLess x v.
Proof.
  unfold strictlyLess. split.
  - intros Hvx. split.
    + destruct (lte_total x v) as [Hxv | Hxv]; [assumption | congruence].
    + intros ->. rewrite lte_refl in Hvx. discriminate.
  - intros [Hxv Hne]. destruct (lte v x) eqn:Hvx; [| reflexivity].
    exfalso. apply Hne. apply lte_antisym; assumption.
Qed.

(** ** Reading the array *)

Lemma array_get_Some_bounds array i x :
  array_get array i = Some x -> 0 <= i < array_length array.
Proof.
  unfold array_get, array_length. destruct (Z.ltb_spec i 0) as [Hneg | Hpos].
  - discriminate.
  - intros Hnth. assert (Hlt : (Z.to_nat i < length array)%nat).
    { apply nth_error_Some. congruence. }
    lia.
Qed.

Lemma array_get_in_bounds array i :
  0 <= i < array_length array -> exists x, array_get array i = Some x.
Proof.
  unfold array_get, array_length. intros [Hpos Hlt].
  destruct (Z.ltb_spec i 0) as [Hneg | _]; [lia |].
  destruct (nth_error array (Z.to_nat i)) as [x |] eqn:Hnth.
  - exists x. reflexivity.
  - apply nth_error_None in Hnth. lia.
Qed.

Lemma array_get_out_of_bounds array i :
  array_length array <= i -> array_get array i = None.
Proof.
  unfold array_get, array_length. intros Hge.
  destruct (Z.ltb_spec i 0) as [Hneg | Hpos]; [reflexivity |].
  apply nth_error_None. lia.
Qed.

Lemma array_get_cons_succ (x : T) array i :
  0 <= i -> array_get (x :: array) (i + 1) = array_get array i.
Proof.
  intros Hpos. unfold array_get.
  destruct (Z.ltb_spec (i + 1) 0); [lia |].
  destruct (Z.ltb_spec i 0); [lia |].
  replace (Z.to_nat (i + 1)) with (S (Z.to_nat i)) by lia. reflexivity.
Qed.

Lemma array_get_In array i x : array_get array i = Some x -> In x array.
Proof.
  unfold array_get. destruct (i <? 0); [discriminate |]. apply nth_error_In.
Qed.

Lemma In_array_get array x : In x array -> exists i, array_get array i = Some x.
Proof.
  intros Hin. apply In_nth_error in Hin. destruct Hin as [n Hn].
  exists (Z.of_nat n). unfold array_get.
  destruct (Z.ltb_spec (Z.of_nat n) 0); [lia |].
  rewrite Nat2Z.id. assumption.
Qed.

(** ** Sortedness *)

Lemma sorted_tail (x : T) array : sorted (x :: array) -> sorted array.
Proof.
  unfold sorted. simpl. destruct array as [| y rest]; [reflexivity |].
  intros Hs. apply andb_true_iff in Hs. apply Hs.
Qed.

Lemma sorted_head_le (x : T) array y :
  sorted (x :: array) -> In y array -> lte x y = true.
Proof.
  revert x. induction array as [| z rest IH]; intros x Hs Hin.
  - destruct Hin.
  - assert (Hxz : lte x z = true).
    { unfold sorted in Hs. simpl in Hs. apply andb_true_iff in Hs. apply Hs. }
    destruct Hin as [-> | Hin]; [assumption |].
    apply lte_trans with z; [assumption |].
    apply IH; [| assumption]. apply sorted_tail with x. assumption.
Qed.

Lemma sorted_get_le array i j x y :
  sorted array -> i <= j ->
  array_get array i = Some x -> array_get array j = Some y ->
  lte x y = true.
Proof.
  revert i j. induction array as [| z rest IH]; intros i j Hs Hij Hi Hj.
  - apply array_get_Some_bounds in Hi. unfold array_length in Hi. simpl in Hi. lia.
  - assert (Hi0 : 0 <= i) by (apply array_get_Some_bounds in Hi; lia).
    destruct (Z.eq_dec i 0) as [-> | Hne].
    + assert (x = z) as -> by (unfold array_get in Hi; simpl in Hi; congruence).
      destruct (Z.eq_dec j 0) as [-> | Hnej].
      * assert (y = z) as -> by (unfold array_get in Hj; simpl in Hj; congruence).
        apply lte_refl.
      * replace j with ((j - 1) + 1) in Hj by lia.
        rewrite array_get_cons_succ in Hj by lia.
        apply sorted_head_le with rest; [assumption |].
        apply array_get_In with (j - 1). assumption.
    + replace i with ((i - 1) + 1) in Hi by lia.
      replace j with ((j - 1) + 1) in Hj by lia.
      rewrite array_get_cons_succ in Hi, Hj by lia.
      apply IH with (i - 1) (j - 1); try assumption; [| lia].
      apply sorted_tail with z. assumption.
Qed.

(** ** One step of the search *)

Lemma midPoint_bounds low high :
  low < high -> low <= midPoint low high < high.
Proof.
  intros Hlt. unfold midPoint.
  assert (0 <= (high - low) / 2) by (apply Z.div_pos; lia).
  assert ((high - low) / 2 < high - low) by (apply Z.div_lt; lia).
  lia.
Qed.

Lemma newRange_cases array value low high :
  (lteU value (array_get array (midPoint low high)) = true /\
   newRange array value low high = (low, midPoint low high)) \/
  (lteU value (array_get array (midPoint low high)) = false /\
   newRange array value low high = (midPoint low high + 1, high)).
Proof.
  unfold newRange.
  destruct (lteU value (array_get array (midPoint low high))); auto.
Qed.

Lemma newRange_halves array value low high :
  low < high ->
  low <= fst (newRange array value low high) /\
  fst (newRange array value low high) <= snd (newRange array value low high) /\
  snd (newRange array value low high) <= high /\
  snd (newRange array value low high) - fst (newRange array value low high)
    <= (high - low) / 2.
Proof.
  intros Hlt. pose proof (midPoint_bounds low high Hlt) as Hmid.
  assert (Hdiv : midPoint low high = low + (high - low) / 2) by reflexivity.
  assert (Hhalf : high - low - 1 <= 2 * ((high - low) / 2) <= high - low).
  { pose proof (Z.div_mod (high - low) 2 ltac:(lia)).
    pose proof (Z.mod_pos_bound (high - low) 2 ltac:(lia)). lia. }
  destruct (newRange_cases array value low high) as [[_ ->] | [_ ->]];
    simpl; lia.
Qed.

Lemma sortedIndex_unfold fuel array value low high :
  sortedIndex (S fuel) array value (Some (low, high)) =
  if low =? high then Some low
  else sortedIndex fuel array value (Some (newRange array value low high)).
Proof. reflexivity. Qed.

Lemma sortedIndex_default fuel array value :
  sortedIndex fuel array value None =
  sortedIndex fuel array value (Some (0, array_length array)).
Proof. destruct fuel; reflexivity. Qed.

(** ** Termination *)

Lemma sortedIndex_range_returns fuel array value : forall low high,
  low <= high ->
  (low = high /\ (1 <= fuel)%nat) \/ Z.log2 (high - low) + 2 <= Z.of_nat fuel ->
  exists i, sortedIndex fuel array value (Some (low, high)) = Some i /\
            low <= i <= high.
Proof.
  induction fuel as [| fuel IH]; intros low high Hle Hfuel.
  - exfalso. pose proof (Z.log2_nonneg (high - low)). lia.
  - rewrite sortedIndex_unfold. destruct (Z.eqb_spec low high) as [Heq | Hne].
    + exists low. split; [reflexivity | lia].
    + assert (Hlt : low < high) by lia.
      pose proof (newRange_halves array value low high Hlt) as Hnew.
      destruct (newRange array value low high) as [low' high']. simpl in Hnew.
      destruct (IH low' high') as [i [Hi Hbounds]]; [lia | | exists i; split; [assumption | lia]].
      pose proof (Z.log2_nonneg (high - low)) as Hlog.
      destruct (Z.eq_dec low' high') as [Heq' | Hne']; [left; lia | right].
      assert (Hdouble : Z.log2 (2 * (high' - low')) = Z.succ (Z.log2 (high' - low')))
        by (apply Z.log2_double; lia).
      assert (Hmono : Z.log2 (2 * (high' - low')) <= Z.log2 (high - low)).
      { apply Z.log2_le_mono.
        pose proof (Z.div_mod (high - low) 2 ltac:(lia)).
        pose proof (Z.mod_pos_bound (high - low) 2 ltac:(lia)). lia. }
      lia.
Qed.

Lemma callDepth_enough array fuel :
  (callDepth array <= fuel)%nat ->
  Z.log2 (array_length array - 0) + 2 <= Z.of_nat fuel.
Proof.
  unfold callDepth. intros Hfuel. rewrite Z.sub_0_r.
  pose proof (Z.log2_nonneg (array_length array)). lia.
Qed.

Lemma sortedIndex_returns fuel array value :
  (callDepth array <= fuel)%nat ->
  exists i, sortedIndex fuel array value None = Some i /\
            0 <= i <= array_length array.
Proof.
  intros Hfuel. rewrite sortedIndex_default.
  apply sortedIndex_range_returns.
  - unfold array_length. lia.
  - right. apply callDepth_enough. assumption.
Qed.

Lemma sortedIndex_more_fuel fuel array value : forall _range i fuel',
  sortedIndex fuel array value _range = Some i ->
  (fuel <= fuel')%nat ->
  sortedIndex fuel' array value _range = Some i.
Proof.
  induction fuel as [| fuel IH]; intros _range i fuel' Hrun Hle.
  - discriminate.
  - destruct fuel' as [| fuel']; [lia |].
    simpl in *. destruct (rangeOrDefault array _range) as [low high].
    destruct (low =? high); [assumption |].
    apply IH; [assumption | lia].
Qed.


(** ** The search on a sorted array *)

Lemma sortedIndex_range_partitions fuel array value : forall low high i,
  sorted array ->
  0 <= low <= high -> high <= array_length array ->
  (forall j x, 0 <= j < low -> array_get array j = Some x -> lte value x = false) ->
  (forall j x, high <= j -> array_get array j = Some x -> lte value x = true) ->
  sortedIndex fuel array value (Some (low, high)) = Some i ->
  (forall j x, 0 <= j < i -> array_get array j = Some x -> lte value x = false) /\
  (forall j x, i <= j -> array_get array j = Some x -> lte value x = true).
Proof.
  induction fuel as [| fuel IH]; intros low high i Hs Hlow Hhigh Hbelow Habove Hrun.
  - discriminate.
  - rewrite sortedIndex_unfold in Hrun.
    destruct (Z.eqb_spec low high) as [Heq | Hne].
    + injection Hrun as <-. split; [assumption |]. subst high. assumption.
    + assert (Hlt : low < high) by lia.
      pose proof (midPoint_bounds low high Hlt) as Hmid.
      destruct (array_get_in_bounds array (midPoint low high)) as [m Hm]; [lia |].
      destruct (newRange_cases array value low high) as [[Hcmp Hnew] | [Hcmp Hnew]];
        rewrite Hnew in Hrun; rewrite Hm in Hcmp; simpl in Hcmp.
      * apply (IH low (midPoint low high) i); try assumption; try lia.
        intros j x Hj Hx. apply lte_trans with m; [assumption |].
        apply sorted_get_le with array (midPoint low high) j; assumption.
      * apply (IH (midPoint low high + 1) high i); try assumption; try lia.
        intros j x Hj Hx. destruct (lte value x) eqn:Hvx; [| reflexivity].
        rewrite <- Hcmp. symmetry. apply lte_trans with x; [assumption |].
        apply sorted_get_le with array j (midPoint low high); try assumption. lia.
Qed.

Lemma sortedIndex_partitions fuel array value i :
  sorted array ->
  sortedIndex fuel array value None = Some i ->
  partitioned array value i.
Proof.
  intros Hs Hrun. rewrite sortedIndex_default in Hrun.
  apply sortedIndex_range_partitions in Hrun; try assumption.
  - destruct Hrun as [Hbelow Habove]. split; [| assumption].
    intros j x Hj Hx. apply not_lte_strictlyLess. apply Hbelow with j; assumption.
  - unfold array_length. lia.
  - lia.
  - intros j x Hj. lia.
  - intros j x Hj Hx. apply array_get_Some_bounds in Hx. lia.
Qed.

(** C1: on an array sorted ascending, [sortedIndex] called without
    [_range] returns an index [i] between 0 and the length of the array
    such that every element before [i] is strictly less than the value and
    every element at [i] or after it is greater than or equal to the
    value. *)
Theorem sortedIndex_lower_bound array value fuel :
  sorted array ->
  (callDepth array <= fuel)%nat ->
  exists i, sortedIndex fuel array value None = Some i /\
            0 <= i <= array_length array /\
            (forall j x, 0 <= j < i -> array_get array j = Some x ->
                         strictlyLess x value) /\
            (forall j x, i <= j -> array_get array j = Some x ->
                         lte value x = true).
Proof.
  intros Hs Hfuel.
  destruct (sortedIndex_returns fuel array value Hfuel) as [i [Hrun Hbounds]].
  exists i. split; [assumption |]. split; [assumption |].
  apply (sortedIndex_partitions fuel); assumption.
Qed.

(** ** First occurrences *)

Lemma strictEqU_true (x : option T) value :
  strictEqU x value = true <-> x = Some value.
Proof.
  destruct x as [y |]; simpl.
  - rewrite strictEq_eq. split; congruence.
  - split; discriminate.
Qed.

Lemma occurrences_In array value :
  (1 <= occurrences array value)%nat <-> In value array.
Proof.
  unfold occurrences. split.
  - intros Hcount.
    destruct (filter (fun x => strictEq x value) array) as [| y rest] eqn:Hf.
    + simpl in Hcount. lia.
    + assert (Hin : In y (filter (fun x => strictEq x value) array))
        by (rewrite Hf; left; reflexivity).
      apply filter_In in Hin. destruct Hin as [Hin Heq].
      apply strictEq_eq in Heq. subst y. assumption.
  - intros Hin.
    assert (Hin' : In value (filter (fun x => strictEq x value) array)).
    { apply filter_In. split; [assumption |]. apply strictEq_eq. reflexivity. }
    destruct (filter (fun x => strictEq x value) array); [destruct Hin' |].
    simpl. lia.
Qed.

Lemma partitioned_first_occurrence array value i :
  sorted array -> 0 <= i -> partitioned array value i -> In value array ->
  firstOccurrence array value i.
Proof.
  intros Hs Hi0 [Hbelow Habove] Hin.
  assert (Hnone : forall j, 0 <= j < i -> array_get array j <> Some value).
  { intros j Hj Hget. destruct (Hbelow j value Hj Hget) as [_ Hne].
    apply Hne. reflexivity. }
  split; [| assumption].
  apply In_array_get in Hin. destruct Hin as [k Hk].
  pose proof (array_get_Some_bounds array k value Hk) as Hkb.
  assert (Hik : i <= k).
  { destruct (Z_le_gt_dec i k) as [Hle | Hgt]; [assumption |].
    exfalso. apply (Hnone k); [lia | assumption]. }
  destruct (array_get_in_bounds array i) as [m Hm]; [lia |].
  rewrite Hm. f_equal. apply lte_antisym.
  - apply sorted_get_le with array i k; assumption.
  - apply Habove with i; [lia | assumption].
Qed.

Lemma sortedIndexOf_more_fuel fuel fuel' array value r :
  sortedIndexOf fuel array value = Some r ->
  (fuel <= fuel')%nat ->
  sortedIndexOf fuel' array value = Some r.
Proof.
  unfold sortedIndexOf. intros Hrun Hle.
  destruct (sortedIndex fuel array value None) as [i |] eqn:Hi; [| discriminate].
  rewrite (sortedIndex_more_fuel fuel array value None i fuel' Hi Hle).
  assumption.
Qed.

(** C2: on an array sorted ascending, [sortedIndexOf] returns -1 when the
    value does not occur in the array and the index of its first occurrence
    when it does; its result is the index that [sortedIndex] returns when
    the element there equals the value, and -1 otherwise. *)
Theorem sortedIndexOf_first_or_minus_one array value fuel :
  sorted array ->
  (callDepth array <= fuel)%nat ->
  exists r i,
    sortedIndexOf fuel array value = Some r /\
    sortedIndex fuel array value None = Some i /\
    (~ In value array -> r = -1) /\
    (In value array -> firstOccurrence array value r) /\
    (array_get array i = Some value -> r = i) /\
    (array_get array i <> Some value -> r = -1).
Proof.
  intros Hs Hfuel.
  destruct (sortedIndex_returns fuel array value Hfuel) as [i [Hrun Hbounds]].
  pose proof (sortedIndex_partitions fuel array value i Hs Hrun) as Hpart.
  unfold sortedIndexOf. rewrite Hrun.
  destruct (strictEqU (array_get array i) value) eqn:Heq.
  - apply strictEqU_true in Heq.
    assert (Hin : In value array) by (apply array_get_In with i; assumption).
    exists i, i.
    split; [reflexivity |]. split; [reflexivity |].
    split; [intros Hnot; contradiction |].
    split; [| split; [reflexivity | intros Hne; contradiction]].
    intros _. apply partitioned_first_occurrence; try assumption. lia.
  - assert (Hne : array_get array i <> Some value).
    { intros Hget. apply strictEqU_true in Hget. congruence. }
    assert (Hnot : ~ In value array).
    { intros Hin. apply Hne.
      apply (partitioned_first_occurrence array value i); try assumption. lia. }
    exists (-1), i.
    split; [reflexivity |]. split; [reflexivity |].
    split; [reflexivity |].
    split; [intros Hin; contradiction |].
    split; [intros Hget; contradiction | reflexivity].
Qed.

(** C3: on an array sorted ascending that holds at least one element equal
    to the value, [sortedIndex] returns the index of the first of them; a
    midpoint element equal to the value sends the search to the left
    range. *)
Theorem sortedIndex_first_occurrence array value fuel :
  sorted array ->
  (1 <= occurrences array value)%nat ->
  (callDepth array <= fuel)%nat ->
  (exists i, sortedIndex fuel array value None = Some i /\
             firstOccurrence array value i) /\
  (forall low high,
     array_get array (midPoint low high) = Some value ->
     newRange array value low high = (low, midPoint low high)).
Proof.
  intros Hs Hocc Hfuel. split.
  - destruct (sortedIndex_returns fuel array value Hfuel) as [i [Hrun Hbounds]].
    exists i. split; [assumption |].
    apply partitioned_first_occurrence; try assumption.
    + lia.
    + apply (sortedIndex_partitions fuel); assumption.
    + apply occurrences_In. assumption.
  - intros low high Hget. unfold newRange. rewrite Hget. simpl.
    rewrite lte_refl. reflexivity.
Qed.

(** C5: for every array, sorted or not, [sortedIndex] called without
    [_range] returns an index between 0 and the length of the array. *)
Theorem sortedIndex_in_range array value fuel :
  (callDepth array <= fuel)%nat ->
  exists i, sortedIndex fuel array value None = Some i /\
            0 <= i <= array_length array.
Proof. apply sortedIndex_returns. Qed.

(** C6: on the empty array [sortedIndex] returns 0 and [sortedIndexOf]
    returns -1, whatever the value. *)
Theorem empty_array value fuel :
  (1 <= fuel)%nat ->
  sortedIndex fuel [] value None = Some 0 /\
  sortedIndexOf fuel [] value = Some (-1).
Proof.
  intros Hfuel. destruct fuel as [| fuel]; [lia |].
  split; reflexivity.
Qed.

(** ** The calls of a run *)

Lemma invocations_unfold fuel array value low high :
  invocations (S fuel) array value (Some (low, high)) =
  (low, high) ::
  (if low =? high then []
   else invocations fuel array value (Some (newRange array value low high))).
Proof. reflexivity. Qed.

Lemma invocations_default fuel array value :
  invocations fuel array value None =
  invocations fuel array value (Some (0, array_length array)).
Proof. destruct fuel; reflexivity. Qed.

(** A run that returns [i] ends with the call on the empty range at [i]. *)
Lemma invocations_last fuel array value : forall low high i,
  sortedIndex fuel array value (Some (low, high)) = Some i ->
  exists calls,
    invocations fuel array value (Some (low, high)) = calls ++ [(i, i)].
Proof.
  induction fuel as [| fuel IH]; intros low high i Hrun.
  - discriminate.
  - rewrite sortedIndex_unfold in Hrun. rewrite invocations_unfold.
    destruct (Z.eqb_spec low high) as [Heq | Hne].
    + injection Hrun as <-. subst high. exists []. reflexivity.
    + destruct (newRange array value low high) as [low' high'].
      destruct (IH low' high' i Hrun) as [calls Hcalls].
      exists ((low, high) :: calls). rewrite Hcalls. reflexivity.
Qed.

Lemma invocations_range_invariant fuel array value : forall low high l h,
  0 <= low <= high -> high <= array_length array ->
  In (l, h) (invocations fuel array value (Some (low, high))) ->
  0 <= l <= h /\ h <= array_length array.
Proof.
  induction fuel as [| fuel IH]; intros low high l h Hlow Hhigh Hin.
  - destruct Hin.
  - rewrite invocations_unfold in Hin. destruct Hin as [Heq | Hin].
    + injection Heq as <- <-. split; assumption.
    + destruct (Z.eqb_spec low high) as [Heq | Hne]; [destruct Hin |].
      pose proof (newRange_halves array value low high ltac:(lia)) as Hnew.
      destruct (newRange array value low high) as [low' high']. simpl in Hnew.
      apply (IH low' high' l h); [lia | lia | assumption].
Qed.

Lemma invocations_range_count fuel array value : forall low high,
  low <= high ->
  Z.of_nat (length (invocations fuel array value (Some (low, high))))
    <= if low =? high then 1 else Z.log2 (high - low) + 2.
Proof.
  induction fuel as [| fuel IH]; intros low high Hle.
  - simpl. pose proof (Z.log2_nonneg (high - low)).
    destruct (low =? high); lia.
  - rewrite invocations_unfold. destruct (Z.eqb_spec low high) as [Heq | Hne].
    + simpl. lia.
    + pose proof (newRange_halves array value low high ltac:(lia)) as Hnew.
      destruct (newRange array value low high) as [low' high']. simpl in Hnew.
      specialize (IH low' high' ltac:(lia)).
      change (length ((low, high) :: invocations fuel array value (Some (low', high'))))
        with (S (length (invocations fuel array value (Some (low', high'))))).
      pose proof (Z.log2_nonneg (high - low)) as Hlog.
      destruct (Z.eqb_spec low' high') as [Heq' | Hne']; [lia |].
      assert (Hdouble : Z.log2 (2 * (high' - low')) = Z.succ (Z.log2 (high' - low')))
        by (apply Z.log2_double; lia).
      assert (Hmono : Z.log2 (2 * (high' - low')) <= Z.log2 (high - low)).
      { apply Z.log2_le_mono.
        pose proof (Z.div_mod (high - low) 2 ltac:(lia)).
        pose proof (Z.mod_pos_bound (high - low) 2 ltac:(lia)). lia. }
      lia.
Qed.

Lemma invocations_count fuel array value :
  (length (invocations fuel array value None) <= callDepth array)%nat.
Proof.
  rewrite invocations_default.
  pose proof (invocations_range_count fuel array value 0 (array_length array)) as Hc.
  assert (Hlen : 0 <= array_length array) by (unfold array_length; lia).
  specialize (Hc Hlen). rewrite Z.sub_0_r in Hc.
  pose proof (Z.log2_nonneg (array_length array)) as Hlog.
  unfold callDepth. destruct (0 =? array_length array); lia.
Qed.

(** C4: the recursion of [sortedIndex] terminates.  A call on a range with
    [low < high] recurses on [low, midPoint] or on [midPoint + 1, high],
    which lies inside the range and is shorter by one element at least; a
    call without [_range] returns within [callDepth array] calls, two more
    than the binary logarithm of the length; and the result of a call on a
    non-empty range is the result of its recursive call, unchanged. *)
Theorem sortedIndex_terminates array value :
  (forall low high, low < high ->
     (newRange array value low high = (low, midPoint low high) \/
      newRange array value low high = (midPoint low high + 1, high)) /\
     low <= fst (newRange array value low high) /\
     fst (newRange array value low high) <= snd (newRange array value low high) /\
     snd (newRange array value low high) <= high /\
     snd (newRange array value low high) - fst (newRange array value low high)
       <= high - low - 1) /\
  (forall fuel, (callDepth array <= fuel)%nat ->
     exists i, sortedIndex fuel array value None = Some i) /\
  (forall fuel,
     (length (invocations fuel array value None) <= callDepth array)%nat) /\
  Z.of_nat (callDepth array) = Z.log2 (array_length array) + 2 /\
  (forall fuel low high, low <> high ->
     sortedIndex (S fuel) array value (Some (low, high)) =
     sortedIndex fuel array value (Some (newRange array value low high))).
Proof.
  split; [| split; [| split; [| split]]].
  - intros low high Hlt.
    pose proof (newRange_halves array value low high Hlt) as Hnew.
    assert (Hhalf : (high - low) / 2 <= high - low - 1).
    { assert ((high - low) / 2 < high - low) by (apply Z.div_lt; lia). lia. }
    split; [| lia].
    destruct (newRange_cases array value low high) as [[_ Hr] | [_ Hr]]; auto.
  - intros fuel Hfuel.
    destruct (sortedIndex_returns fuel array value Hfuel) as [i [Hrun _]].
    exists i. assumption.
  - intros fuel. apply invocations_count.
  - unfold callDepth. pose proof (Z.log2_nonneg (array_length array)). lia.
  - intros fuel low high Hne. rewrite sortedIndex_unfold.
    destruct (Z.eqb_spec low high); [contradiction | reflexivity].
Qed.

(** C9: every call of a run of [sortedIndex] started without [_range] has
    [0 <= low <= high <= array.length]; the calls that read the array are
    those with [low <> high], and there [low < high], the midpoint lies in
    [low, high) and [array[midPoint]] is an element of the array, never
    [undefined]. *)
Theorem invocations_in_bounds array value fuel low high :
  In (low, high) (invocations fuel array value None) ->
  (0 <= low <= high /\ high <= array_length array) /\
  (low <> high ->
     low < high /\
     low <= midPoint low high < high /\
     0 <= midPoint low high < array_length array /\
     exists x, array_get array (midPoint low high) = Some x).
Proof.
  intros Hin. rewrite invocations_default in Hin.
  apply invocations_range_invariant in Hin;
    [| unfold array_length; lia | lia].
  split; [assumption |]. intros Hne.
  assert (Hlt : low < high) by lia.
  pose proof (midPoint_bounds low high Hlt) as Hmid.
  split; [assumption |]. split; [assumption |]. split; [lia |].
  apply array_get_in_bounds. lia.
Qed.

(** C10: on an array sorted ascending, [sortedIndex] is monotone in the
    value searched for. *)
Theorem sortedIndex_monotone array v w fuel :
  sorted array ->
  lte v w = true ->
  (callDepth array <= fuel)%nat ->
  exists i j,
    sortedIndex fuel array v None = Some i /\
    sortedIndex fuel array w None = Some j /\
    i <= j.
Proof.
  intros Hs Hvw Hfuel.
  destruct (sortedIndex_returns fuel array v Hfuel) as [i [Hi Hib]].
  destruct (sortedIndex_returns fuel array w Hfuel) as [j [Hj Hjb]].
  exists i, j. split; [assumption |]. split; [assumption |].
  destruct (Z_le_gt_dec i j) as [Hle | Hgt]; [assumption | exfalso].
  destruct (sortedIndex_partitions fuel array v i Hs Hi) as [Hbelow _].
  destruct (sortedIndex_partitions fuel array w j Hs Hj) as [_ Habove].
  destruct (array_get_in_bounds array j) as [x Hx]; [lia |].
  destruct (Hbelow j x ltac:(lia) Hx) as [Hxv Hne].
  apply Hne. apply lte_antisym; [assumption |].
  apply lte_trans with w; [assumption |].
  apply Habove with j; [lia | assumption].
Qed.

(** ** The store is only read *)

Local Open Scope monad_scope.

Lemma sortedIndexM_run fuel value : forall _range array,
  runState (sortedIndexM fuel value _range) array =
  (sortedIndex fuel array value _range, array).
Proof.
  induction fuel as [| fuel IH]; intros _range array.
  - reflexivity.
  - destruct _range as [[low high] |]; simpl.
    + destruct (low =? high) eqn:Heq; [reflexivity |].
      simpl. rewrite IH. reflexivity.
    + destruct (array_length array) as [| len | len]; simpl;
        [reflexivity | rewrite IH; reflexivity | rewrite IH; reflexivity].
Qed.

Lemma sortedIndexOfM_run fuel value array :
  runState (sortedIndexOfM fuel value) array =
  (sortedIndexOf fuel array value, array).
Proof.
  unfold sortedIndexOfM, sortedIndexOf. simpl.
  rewrite sortedIndexM_run.
  destruct (sortedIndex fuel array value None); reflexivity.
Qed.

(** C8: [sortedIndex] and [sortedIndexOf] only read the array: run on a
    store they leave it as it was, their result is a function of the array
    and the value, and calling either twice in a row gives the same result
    twice. *)
Theorem sortedIndex_pure array value fuel :
  runState (sortedIndexM fuel value None) array =
    (sortedIndex fuel array value None, array) /\
  runState (sortedIndexOfM fuel value) array =
    (sortedIndexOf fuel array value, array) /\
  runState (r1 <- sortedIndexM fuel value None ;;
            r2 <- sortedIndexM fuel value None ;;
            ret (r1, r2)) array =
    ((sortedIndex fuel array value None, sortedIndex fuel array value None),
     array) /\
  runState (r1 <- sortedIndexOfM fuel value ;;
            r2 <- sortedIndexOfM fuel value ;;
            ret (r1, r2)) array =
    ((sortedIndexOf fuel array value, sortedIndexOf fuel array value), array).
Proof.
  split; [apply sortedIndexM_run |].
  split; [apply sortedIndexOfM_run |].
  split.
  - cbn [bind ret Monad_state runState].
    rewrite !sortedIndexM_run. reflexivity.
  - cbn [bind ret Monad_state runState].
    rewrite !sortedIndexOfM_run. reflexivity.
Qed.

(** * Calls with a range *)

Lemma rangeDepth_enough low high fuel :
  (rangeDepth low high <= fuel)%nat ->
  Z.log2 (high - low) + 2 <= Z.of_nat fuel.
Proof.
  unfold rangeDepth. intros Hfuel.
  pose proof (Z.log2_nonneg (high - low)). lia.
Qed.

Lemma sortedIndex_range_bounds fuel array value : forall low high i,
  low <= high ->
  sortedIndex fuel array value (Some (low, high)) = Some i ->
  low <= i <= high.
Proof.
  induction fuel as [| fuel IH]; intros low high i Hle Hrun.
  - discriminate.
  - rewrite sortedIndex_unfold in Hrun.
    destruct (Z.eqb_spec low high) as [Heq | Hne].
    + injection Hrun as <-. lia.
    + pose proof (newRange_halves array value low high ltac:(lia)) as Hnew.
      destruct (newRange array value low high) as [low' high']. simpl in Hnew.
      apply IH in Hrun; lia.
Qed.

(** The search between two fences: what lies left of [low] back to [lo0]
    compares false, what lies right of [high] up to [hi0] compares true. *)
Lemma sortedIndex_fenced fuel array value lo0 hi0 : forall low high i,
  sorted array ->
  0 <= lo0 <= low -> low <= high -> high <= hi0 <= array_length array ->
  (forall j x, lo0 <= j < low -> array_get array j = Some x ->
               lte value x = false) ->
  (forall j x, high <= j < hi0 -> array_get array j = Some x ->
               lte value x = true) ->
  sortedIndex fuel array value (Some (low, high)) = Some i ->
  (forall j x, lo0 <= j < i -> array_get array j = Some x ->
               lte value x = false) /\
  (forall j x, i <= j < hi0 -> array_get array j = Some x ->
               lte value x = true).
Proof.
  induction fuel as [| fuel IH];
    intros low high i Hs Hlo Hle Hhi Hbelow Habove Hrun.
  - discriminate.
  - rewrite sortedIndex_unfold in Hrun.
    destruct (Z.eqb_spec low high) as [Heq | Hne].
    + injection Hrun as <-. split; [assumption |]. subst high. assumption.
    + assert (Hlt : low < high) by lia.
      pose proof (midPoint_bounds low high Hlt) as Hmid.
      destruct (array_get_in_bounds array (midPoint low high)) as [m Hm]; [lia |].
      destruct (newRange_cases array value low high) as [[Hcmp Hnew] | [Hcmp Hnew]];
        rewrite Hnew in Hrun; rewrite Hm in Hcmp; simpl in Hcmp.
      * apply (IH low (midPoint low high) i); try assumption; try lia.
        intros j x Hj Hx.
        destruct (Z_lt_le_dec j high) as [Hjh | Hjh];
          [| apply Habove with j; [lia | assumption]].
        apply lte_trans with m; [assumption |].
        apply sorted_get_le with array (midPoint low high) j;
          try assumption; lia.
      * apply (IH (midPoint low high + 1) high i); try assumption; try lia.
        intros j x Hj Hx.
        destruct (Z_lt_le_dec j low) as [Hjl | Hjl];
          [apply Hbelow with j; [lia | assumption] |].
        destruct (lte value x) eqn:Hvx; [| reflexivity].
        rewrite <- Hcmp. symmetry. apply lte_trans with x; [assumption |].
        apply sorted_get_le with array j (midPoint low high);
          try assumption; lia.
Qed.

(** X1: called with a range [low, high] inside a sorted array,
    [sortedIndex] returns the lower bound within that range: an index [i]
    with [low <= i <= high], the elements at [low .. i-1] strictly less
    than the value and the elements at [i .. high-1] greater than or equal
    to it. *)
Theorem sortedIndex_subrange array value low high fuel :
  sorted array ->
  0 <= low -> low <= high -> high <= array_length array ->
  (rangeDepth low high <= fuel)%nat ->
  exists i,
    sortedIndex fuel array value (Some (low, high)) = Some i /\
    low <= i <= high /\
    (forall j x, low <= j < i -> array_get array j = Some x ->
                 strictlyLess x value) /\
    (forall j x, i <= j < high -> array_get array j = Some x ->
                 lte value x = true).
Proof.
  intros Hs Hlow Hle Hhigh Hfuel.
  destruct (sortedIndex_range_returns fuel array value low high Hle)
    as [i [Hrun Hbounds]].
  { right. apply rangeDepth_enough. assumption. }
  exists i. split; [assumption |]. split; [assumption |].
  assert (Hfences :
    (forall j x, low <= j < i -> array_get array j = Some x ->
                 lte value x = false) /\
    (forall j x, i <= j < high -> array_get array j = Some x ->
                 lte value x = true)).
  { apply (sortedIndex_fenced fuel array value low high low high i);
      try assumption; try lia; intros j x Hj; lia. }
  destruct Hfences as [Hbelow Habove]. split; [| assumption].
  intros j x Hj Hx. apply not_lte_strictlyLess. apply Hbelow with j; assumption.
Qed.



(** ** Comparisons that all answer alike *)

Lemma sortedIndex_all_true fuel array value : forall low high i,
  low <= high ->
  (forall j, low <= j < high -> lteU value (array_get array j) = true) ->
  sortedIndex fuel array value (Some (low, high)) = Some i ->
  i = low.
Proof.
  induction fuel as [| fuel IH]; intros low high i Hle Hall Hrun.
  - discriminate.
  - rewrite sortedIndex_unfold in Hrun.
    destruct (Z.eqb_spec low high) as [Heq | Hne].
    + injection Hrun as <-. reflexivity.
    + pose proof (midPoint_bounds low high ltac:(lia)) as Hmid.
      destruct (newRange_cases array value low high) as [[Hcmp Hnew] | [Hcmp Hnew]].
      * rewrite Hnew in Hrun. apply IH in Hrun; [assumption | lia |].
        intros j Hj. apply Hall. lia.
      * rewrite Hall in Hcmp by lia. discriminate.
Qed.

Lemma sortedIndex_all_false fuel array value : forall low high i,
  low <= high ->
  (forall j, low <= j < high -> lteU value (array_get array j) = false) ->
  sortedIndex fuel array value (Some (low, high)) = Some i ->
  i = high.
Proof.
  induction fuel as [| fuel IH]; intros low high i Hle Hall Hrun.
  - discriminate.
  - rewrite sortedIndex_unfold in Hrun.
    destruct (Z.eqb_spec low high) as [Heq | Hne].
    + injection Hrun as <-. assumption.
    + pose proof (midPoint_bounds low high ltac:(lia)) as Hmid.
      destruct (newRange_cases array value low high) as [[Hcmp Hnew] | [Hcmp Hnew]].
      * rewrite Hall in Hcmp by lia. discriminate.
      * rewrite Hnew in Hrun. apply IH in Hrun; [assumption | lia |].
        intros j Hj. apply Hall. lia.
Qed.


(** X4: when the value is less than or equal to every element of the
    array, sorted or not, [sortedIndex] returns 0. *)
Theorem sortedIndex_at_most_all array value fuel :
  (forall x, In x array -> lte value x = true) ->
  (callDepth array <= fuel)%nat ->
  sortedIndex fuel array value None = Some 0.
Proof.
  intros Hall Hfuel.
  destruct (sortedIndex_returns fuel array value Hfuel) as [i [Hrun _]].
  rewrite Hrun. f_equal. rewrite sortedIndex_default in Hrun.
  apply (sortedIndex_all_true fuel array value 0 (array_length array) i);
    try assumption.
  - unfold array_length. lia.
  - intros j Hj. destruct (array_get_in_bounds array j Hj) as [x Hx].
    rewrite Hx. simpl. apply Hall. apply array_get_In with j. assumption.
Qed.

(** X5: when the value is greater than every element of the array, sorted
    or not, [sortedIndex] returns the length of the array and
    [sortedIndexOf] returns -1. *)
Theorem sortedIndex_above_all array value fuel :
  (forall x, In x array -> strictlyLess x value) ->
  (callDepth array <= fuel)%nat ->
  sortedIndex fuel array value None = Some (array_length array) /\
  sortedIndexOf fuel array value = Some (-1).
Proof.
  intros Hall Hfuel.
  destruct (sortedIndex_returns fuel array value Hfuel) as [i [Hrun _]].
  assert (Hi : i = array_length array).
  { rewrite sortedIndex_default in Hrun.
    apply (sortedIndex_all_false fuel array value 0 (array_length array) i);
      try assumption.
    - unfold array_length. lia.
    - intros j Hj. destruct (array_get_in_bounds array j Hj) as [x Hx].
      rewrite Hx. simpl. apply not_lte_strictlyLess. apply Hall.
      apply array_get_In with j. assumption. }
  subst i. split; [assumption |].
  unfold sortedIndexOf. rewrite Hrun.
  rewrite array_get_out_of_bounds by lia. reflexivity.
Qed.

(** ** What a call reads *)

Lemma newRange_agree array array' value low high :
  low < high ->
  (forall j, low <= j < high -> array_get array j = array_get array' j) ->
  newRange array value low high = newRange array' value low high.
Proof.
  intros Hlt Hsame. unfold newRange.
  rewrite Hsame by (apply midPoint_bounds; assumption). reflexivity.
Qed.

(** X6: a call with a range [low <= high] reads the array at positions of
    the range only: on two arrays that agree there, whatever their lengths
    and their other elements, it returns the same result. *)
Theorem sortedIndex_reads_range_only array array' value low high fuel :
  low <= high ->
  (forall j, low <= j < high -> array_get array j = array_get array' j) ->
  sortedIndex fuel array value (Some (low, high)) =
  sortedIndex fuel array' value (Some (low, high)).
Proof.
  revert low high. induction fuel as [| fuel IH]; intros low high Hle Hsame.
  - reflexivity.
  - rewrite !sortedIndex_unfold.
    destruct (Z.eqb_spec low high) as [Heq | Hne]; [reflexivity |].
    rewrite <- (newRange_agree array array' value low high) by (assumption || lia).
    pose proof (newRange_halves array value low high ltac:(lia)) as Hnew.
    destruct (newRange array value low high) as [low' high']. simpl in Hnew.
    apply IH; [lia |]. intros j Hj. apply Hsame. lia.
Qed.

(** * Arrays that need not be sorted *)

Lemma sortedIndex_range_finds fuel array value k : forall low high i,
  0 <= low -> low <= k <= high -> high <= array_length array ->
  (forall j x, 0 <= j < k -> array_get array j = Some x -> lte value x = false) ->
  (forall j x, k <= j -> array_get array j = Some x -> lte value x = true) ->
  sortedIndex fuel array value (Some (low, high)) = Some i ->
  i = k.
Proof.
  induction fuel as [| fuel IH]; intros low high i Hlow Hk Hhigh Hbelow Habove Hrun.
  - discriminate.
  - rewrite sortedIndex_unfold in Hrun.
    destruct (Z.eqb_spec low high) as [Heq | Hne].
    + injection Hrun as <-. lia.
    + pose proof (midPoint_bounds low high ltac:(lia)) as Hmid.
      destruct (array_get_in_bounds array (midPoint low high)) as [m Hm]; [lia |].
      destruct (newRange_cases array value low high) as [[Hcmp Hnew] | [Hcmp Hnew]];
        rewrite Hnew in Hrun; rewrite Hm in Hcmp; simpl in Hcmp.
      * apply (IH low (midPoint low high) i); try assumption; try lia.
        destruct (Z_le_gt_dec k (midPoint low high)) as [Hle | Hgt]; [lia |].
        rewrite (Hbelow (midPoint low high) m) in Hcmp; [discriminate | lia | assumption].
      * apply (IH (midPoint low high + 1) high i); try assumption; try lia.
        destruct (Z_le_gt_dec k (midPoint low high)) as [Hle | Hgt]; [| lia].
        rewrite (Habove (midPoint low high) m) in Hcmp; [discriminate | lia | assumption].
Qed.

Lemma sortedIndex_finds fuel array value k :
  partitioned array value k ->
  0 <= k <= array_length array ->
  (callDepth array <= fuel)%nat ->
  sortedIndex fuel array value None = Some k.
Proof.
  intros [Hbelow Habove] Hk Hfuel.
  destruct (sortedIndex_returns fuel array value Hfuel) as [i [Hrun _]].
  rewrite Hrun. f_equal. rewrite sortedIndex_default in Hrun.
  apply (sortedIndex_range_finds fuel array value k 0 (array_length array) i);
    try assumption; try lia.
  intros j x Hj Hx. apply not_lte_strictlyLess. apply Hbelow with j; assumption.
Qed.

(** X7: sortedness is more than the search needs.  On any array that has
    an index [k] with every element before [k] strictly less than the
    value and every element from [k] on greater than or equal to it,
    [sortedIndex] returns that [k]. *)
Theorem sortedIndex_partition_point array value k fuel :
  partitioned array value k ->
  0 <= k <= array_length array ->
  (callDepth array <= fuel)%nat ->
  sortedIndex fuel array value None = Some k.
Proof. apply sortedIndex_finds. Qed.

Lemma sortedIndex_range_monotone fuel array v w : forall low high i j,
  low <= high ->
  lte v w = true ->
  sortedIndex fuel array v (Some (low, high)) = Some i ->
  sortedIndex fuel array w (Some (low, high)) = Some j ->
  i <= j.
Proof.
  induction fuel as [| fuel IH]; intros low high i j Hle Hvw Hi Hj.
  - discriminate.
  - rewrite sortedIndex_unfold in Hi, Hj.
    destruct (Z.eqb_spec low high) as [Heq | Hne].
    + injection Hi as <-. injection Hj as <-. lia.
    + pose proof (midPoint_bounds low high ltac:(lia)) as Hmid.
      destruct (newRange_cases array v low high) as [[Hcv Hnv] | [Hcv Hnv]];
        destruct (newRange_cases array w low high) as [[Hcw Hnw] | [Hcw Hnw]];
        rewrite Hnv in Hi; rewrite Hnw in Hj.
      * apply (IH low (midPoint low high)); try assumption. lia.
      * apply sortedIndex_range_bounds in Hi; [| lia].
        apply sortedIndex_range_bounds in Hj; [| lia]. lia.
      * exfalso.
        destruct (array_get array (midPoint low high)) as [m |];
          simpl in Hcv, Hcw; [| discriminate].
        rewrite (lte_trans v w m Hvw Hcw) in Hcv. discriminate.
      * apply (IH (midPoint low high + 1) high); try assumption. lia.
Qed.

(** X8: [sortedIndex] is monotone in the value on every array, sorted or
    not: a greater value never gets a smaller index. *)
Theorem sortedIndex_monotone_any_array array v w fuel :
  lte v w = true ->
  (callDepth array <= fuel)%nat ->
  exists i j,
    sortedIndex fuel array v None = Some i /\
    sortedIndex fuel array w None = Some j /\
    i <= j.
Proof.
  intros Hvw Hfuel.
  destruct (sortedIndex_returns fuel array v Hfuel) as [i [Hi _]].
  destruct (sortedIndex_returns fuel array w Hfuel) as [j [Hj _]].
  exists i, j. split; [assumption |]. split; [assumption |].
  rewrite sortedIndex_default in Hi, Hj.
  apply (sortedIndex_range_monotone fuel array v w 0 (array_length array));
    try assumption.
  unfold array_length. lia.
Qed.

(** X9: on every array, sorted or not, what [sortedIndexOf] returns is -1
    or an index of the array at which the value stands: it never points
    at another element or outside the array. *)
Theorem sortedIndexOf_sound array value fuel :
  (callDepth array <= fuel)%nat ->
  exists r,
    sortedIndexOf fuel array value = Some r /\
    (r = -1 \/
     (0 <= r < array_length array /\ array_get array r = Some value)).
Proof.
  intros Hfuel.
  destruct (sortedIndex_returns fuel array value Hfuel) as [i [Hrun _]].
  unfold sortedIndexOf. rewrite Hrun.
  destruct (strictEqU (array_get array i) value) eqn:Heq.
  - apply strictEqU_true in Heq. exists i. split; [reflexivity |]. right.
    split; [| assumption]. apply array_get_Some_bounds with value. assumption.
  - exists (-1). split; [reflexivity |]. left. reflexivity.
Qed.

(** * The index as a count and as an insertion point *)

Lemma partitioned_cons_zero (x : T) array value :
  partitioned (x :: array) value 0 -> partitioned array value 0.
Proof.
  intros [_ Habove]. split.
  - intros j y Hj. lia.
  - intros j y Hj Hy. apply Habove with (j + 1); [lia |].
    rewrite array_get_cons_succ by lia. assumption.
Qed.

Lemma partitioned_cons_succ (x : T) array value i :
  0 < i -> partitioned (x :: array) value i -> partitioned array value (i - 1).
Proof.
  intros Hi [Hbelow Habove]. split.
  - intros j y Hj Hy. apply Hbelow with (j + 1); [lia |].
    rewrite array_get_cons_succ by lia. assumption.
  - intros j y Hj Hy.
    assert (Hj0 : 0 <= j) by (apply array_get_Some_bounds in Hy; lia).
    apply Habove with (j + 1); [lia |].
    rewrite array_get_cons_succ by lia. assumption.
Qed.

Lemma partitioned_countLess array value : forall i,
  0 <= i <= array_length array ->
  partitioned array value i ->
  countLess array value = i.
Proof.
  unfold countLess. induction array as [| x rest IH]; intros i Hi Hpart.
  - unfold array_length in Hi. simpl in *. lia.
  - assert (Hx : array_get (x :: rest) 0 = Some x) by reflexivity.
    assert (Hlen : array_length (x :: rest) = array_length rest + 1)
      by (unfold array_length; simpl length; lia).
    destruct (Z.eq_dec i 0) as [-> | Hne].
    + assert (Hvx : lte value x = true)
        by (apply (proj2 Hpart) with 0; [lia | assumption]).
      simpl. rewrite Hvx. simpl.
      apply IH; [unfold array_length; lia |].
      apply partitioned_cons_zero with x. assumption.
    + assert (Hvx : lte value x = false).
      { apply not_lte_strictlyLess. apply (proj1 Hpart) with 0; [lia | assumption]. }
      simpl. rewrite Hvx. simpl negb. cbv iota.
      change (length (x :: filter (fun y => negb (lte value y)) rest))
        with (S (length (filter (fun y => negb (lte value y)) rest))).
      rewrite Nat2Z.inj_succ.
      rewrite (IH (i - 1)); [lia | lia |].
      apply partitioned_cons_succ with x; [lia | assumption].
Qed.

(** X10: on a sorted array [sortedIndex] returns the number of elements
    of the array that are strictly less than the value. *)
Theorem sortedIndex_counts_less array value fuel :
  sorted array ->
  (callDepth array <= fuel)%nat ->
  sortedIndex fuel array value None = Some (countLess array value).
Proof.
  intros Hs Hfuel.
  destruct (sortedIndex_returns fuel array value Hfuel) as [i [Hrun Hbounds]].
  rewrite Hrun. f_equal. symmetry.
  apply partitioned_countLess; [assumption |].
  apply (sortedIndex_partitions fuel); assumption.
Qed.

(** ** Putting the value in at the index *)

Lemma sorted_cons_intro (x : T) array :
  (forall y, In y array -> lte x y = true) -> sorted array ->
  sorted (x :: array).
Proof.
  intros Hall Hs. destruct array as [| y rest]; [reflexivity |].
  unfold sorted. simpl. apply andb_true_iff. split.
  - apply Hall. left. reflexivity.
  - exact Hs.
Qed.

Lemma sorted_app_intro (front back : list T) :
  sorted front -> sorted back ->
  (forall x y, In x front -> In y back -> lte x y = true) ->
  sorted (front ++ back).
Proof.
  induction front as [| x front IH]; intros Hf Hb Hcross.
  - exact Hb.
  - simpl. apply sorted_cons_intro.
    + intros y Hy. apply in_app_or in Hy. destruct Hy as [Hy | Hy].
      * apply sorted_head_le with front; assumption.
      * apply Hcross; [left; reflexivity | assumption].
    + apply IH; [apply sorted_tail with x; assumption | assumption |].
      intros a b Ha Hb'. apply Hcross; [right; assumption | assumption].
Qed.

Lemma sorted_app_inv (front back : list T) :
  sorted (front ++ back) -> sorted front /\ sorted back.
Proof.
  induction front as [| x front IH]; intros Hs.
  - split; [reflexivity | exact Hs].
  - simpl in Hs. destruct (IH (sorted_tail x _ Hs)) as [Hf Hb].
    split; [| assumption]. apply sorted_cons_intro; [| assumption].
    intros y Hy. apply sorted_head_le with (front ++ back); [assumption |].
    apply in_or_app. left. assumption.
Qed.

Lemma array_get_of_nat array (n : nat) :
  array_get array (Z.of_nat n) = nth_error array n.
Proof.
  unfold array_get. destruct (Z.ltb_spec (Z.of_nat n) 0); [lia |].
  rewrite Nat2Z.id. reflexivity.
Qed.

Lemma partitioned_split array value i :
  0 <= i ->
  partitioned array value i ->
  (forall x, In x (firstn (Z.to_nat i) array) -> strictlyLess x value) /\
  (forall y, In y (skipn (Z.to_nat i) array) -> lte value y = true).
Proof.
  intros Hi [Hbelow Habove]. split.
  - intros x Hx. apply In_nth_error in Hx. destruct Hx as [m Hm].
    rewrite nth_error_firstn in Hm.
    destruct (Nat.ltb_spec m (Z.to_nat i)) as [Hlt | Hge]; [| discriminate].
    apply Hbelow with (Z.of_nat m); [lia |].
    rewrite array_get_of_nat. assumption.
  - intros y Hy. apply In_nth_error in Hy. destruct Hy as [m Hm].
    rewrite nth_error_skipn in Hm.
    apply Habove with (Z.of_nat (Z.to_nat i + m)); [lia |].
    rewrite array_get_of_nat. assumption.
Qed.

Lemma partitioned_app (front back : list T) value :
  (forall x, In x front -> strictlyLess x value) ->
  (forall y, In y back -> lte value y = true) ->
  partitioned (front ++ back) value (array_length front).
Proof.
  unfold array_length. intros Hfront Hback. split.
  - intros j x Hj Hx. apply Hfront. unfold array_get in Hx.
    destruct (Z.ltb_spec j 0); [discriminate |].
    rewrite nth_error_app1 in Hx by lia.
    apply nth_error_In with (Z.to_nat j). assumption.
  - intros j y Hj Hy. apply Hback. unfold array_get in Hy.
    destruct (Z.ltb_spec j 0); [discriminate |].
    rewrite nth_error_app2 in Hy by lia.
    apply nth_error_In with (Z.to_nat j - length front)%nat. assumption.
Qed.

Lemma insertAt_sorted array value i :
  sorted array -> 0 <= i -> partitioned array value i ->
  sorted (insertAt array i value).
Proof.
  intros Hs Hi Hpart.
  destruct (partitioned_split array value i Hi Hpart) as [Hfront Hback].
  assert (Hparts : sorted (firstn (Z.to_nat i) array) /\
                   sorted (skipn (Z.to_nat i) array)).
  { apply sorted_app_inv. rewrite firstn_skipn. assumption. }
  destruct Hparts as [Hsf Hsb].
  unfold insertAt. apply sorted_app_intro.
  - assumption.
  - apply sorted_cons_intro; assumption.
  - intros x y Hx Hy. destruct (Hfront x Hx) as [Hxv _].
    destruct Hy as [<- | Hy]; [assumption |].
    apply lte_trans with value; [assumption | apply Hback; assumption].
Qed.

Lemma insertAt_length array value i :
  array_length (insertAt array i value) = array_length array + 1.
Proof.
  unfold insertAt, array_length.
  rewrite length_app, length_firstn. simpl length. rewrite length_skipn. lia.
Qed.

Lemma insertAt_callDepth array value i :
  callDepth (insertAt array i value) = callDepth (value :: array).
Proof.
  unfold callDepth. rewrite insertAt_length.
  replace (array_length (value :: array)) with (array_length array + 1)
    by (unfold array_length; simpl length; lia).
  reflexivity.
Qed.

(** X11: on a sorted array, putting the value in at the index that
    [sortedIndex] returns gives a sorted array, one element longer. *)
Theorem sortedIndex_insertion_sorted array value fuel :
  sorted array ->
  (callDepth array <= fuel)%nat ->
  exists i,
    sortedIndex fuel array value None = Some i /\
    sorted (insertAt array i value) /\
    array_length (insertAt array i value) = array_length array + 1.
Proof.
  intros Hs Hfuel.
  destruct (sortedIndex_returns fuel array value Hfuel) as [i [Hrun Hbounds]].
  exists i. split; [assumption |]. split; [| apply insertAt_length].
  apply insertAt_sorted; [assumption | lia |].
  apply (sortedIndex_partitions fuel); assumption.
Qed.

(** X12: insert, then look up.  On a sorted array, once the value is put
    in at the index [i] that [sortedIndex] returns, [sortedIndex] and
    [sortedIndexOf] on the new array both return [i]: the value is found
    where it was put, ahead of the elements equal to it. *)
Theorem sortedIndexOf_after_insertion array value fuel fuel' :
  sorted array ->
  (callDepth array <= fuel)%nat ->
  (callDepth (value :: array) <= fuel')%nat ->
  exists i,
    sortedIndex fuel array value None = Some i /\
    array_get (insertAt array i value) i = Some value /\
    sortedIndex fuel' (insertAt array i value) value None = Some i /\
    sortedIndexOf fuel' (insertAt array i value) value = Some i.
Proof.
  intros Hs Hfuel Hfuel'.
  destruct (sortedIndex_returns fuel array value Hfuel) as [i [Hrun Hbounds]].
  pose proof (sortedIndex_partitions fuel array value i Hs Hrun) as Hpart.
  destruct (partitioned_split array value i ltac:(lia) Hpart) as [Hfront Hback].
  assert (Hlen : array_length (firstn (Z.to_nat i) array) = i).
  { unfold array_length in *. rewrite firstn_length_le; lia. }
  assert (Hget : array_get (insertAt array i value) i = Some value).
  { unfold insertAt, array_get. destruct (Z.ltb_spec i 0); [lia |].
    unfold array_length in Hlen.
    rewrite nth_error_app2 by lia.
    replace (Z.to_nat i - length (firstn (Z.to_nat i) array))%nat with 0%nat by lia.
    reflexivity. }
  assert (Hnew : sortedIndex fuel' (insertAt array i value) value None = Some i).
  { apply sortedIndex_finds.
    - unfold insertAt. rewrite <- Hlen at 3. apply partitioned_app.
      + assumption.
      + intros y [<- | Hy]; [apply lte_refl | apply Hback; assumption].
    - rewrite insertAt_length. lia.
    - rewrite insertAt_callDepth. assumption. }
  exists i. split; [assumption |]. split; [assumption |]. split; [assumption |].
  unfold sortedIndexOf. rewrite Hnew, Hget. simpl.
  rewrite (proj2 (strictEq_eq value value) eq_refl). reflexivity.
Qed.


(** X14: on a sorted array, a call with a range [low, high] inside the
    array returns the index of the call without range, brought back into
    the range: [low] when that index is below it, [high] when it is
    above. *)
Theorem sortedIndex_subrange_clamps array value low high fuel :
  sorted array ->
  0 <= low -> low <= high -> high <= array_length array ->
  (callDepth array <= fuel)%nat ->
  (rangeDepth low high <= fuel)%nat ->
  exists g r,
    sortedIndex fuel array value None = Some g /\
    sortedIndex fuel array value (Some (low, high)) = Some r /\
    r = Z.max low (Z.min g high).
Proof.
  intros Hs Hlow Hle Hhigh Hfuel Hrfuel.
  destruct (sortedIndex_returns fuel array value Hfuel) as [g [Hg Hgb]].
  destruct (sortedIndex_range_returns fuel array value low high Hle)
    as [r [Hr Hrb]].
  { right. apply rangeDepth_enough. assumption. }
  exists g, r. split; [assumption |]. split; [assumption |].
  destruct (sortedIndex_partitions fuel array value g Hs Hg) as [Hgbelow Hgabove].
  assert (Hfences :
    (forall j x, low <= j < r -> array_get array j = Some x ->
                 lte value x = false) /\
    (forall j x, r <= j < high -> array_get array j = Some x ->
                 lte value x = true)).
  { apply (sortedIndex_fenced fuel array value low high low high r);
      try assumption; try lia; intros j x Hj; lia. }
  destruct Hfences as [Hrbelow Hrabove].
  assert (Hleft : ~ (r < g /\ r < high)).
  { intros [Hrg Hrh]. destruct (array_get_in_bounds array r) as [x Hx]; [lia |].
    assert (Hfalse : lte value x = false).
    { apply not_lte_strictlyLess. apply Hgbelow with r; [lia | assumption]. }
    rewrite (Hrabove r x) in Hfalse; [discriminate | lia | assumption]. }
  assert (Hright : ~ (g < r /\ low < r)).
  { intros [Hgr Hlr].
    destruct (array_get_in_bounds array (Z.max g low)) as [x Hx]; [lia |].
    assert (Htrue : lte value x = true)
      by (apply Hgabove with (Z.max g low); [lia | assumption]).
    rewrite (Hrbelow (Z.max g low) x) in Htrue; [discriminate | lia | assumption]. }
  lia.
Qed.

End Properties.

(** * Arrays of integers *)

(** C7: the scenarios on [[10, 20, 30, 30, 40]]: [sortedIndex] returns 2
    for 30, 2 for 25, 0 for 5 and 5 for 50; [sortedIndexOf] returns 2 for
    30 and -1 for 35. *)
Theorem scenarios fuel :
  (callDepth example_array <= fuel)%nat ->
  sortedIndex fuel example_array 30 None = Some 2 /\
  sortedIndex fuel example_array 25 None = Some 2 /\
  sortedIndex fuel example_array 5 None = Some 0 /\
  sortedIndex fuel example_array 50 None = Some 5 /\
  sortedIndexOf fuel example_array 30 = Some 2 /\
  sortedIndexOf fuel example_array 35 = Some (-1).
Proof.
  intros Hfuel.
  repeat split;
    first [ apply sortedIndex_more_fuel with (callDepth example_array)
          | apply sortedIndexOf_more_fuel with (callDepth example_array) ];
    solve [ reflexivity | assumption ].
Qed.

(** ** Instances of the theorems *)

Lemma scenarios_witness :
  (callDepth example_array <= 4)%nat /\
  sortedIndex 4 example_array 30 None = Some 2 /\
  sortedIndex 4 example_array 25 None = Some 2 /\
  sortedIndex 4 example_array 5 None = Some 0 /\
  sortedIndex 4 example_array 50 None = Some 5 /\
  sortedIndexOf 4 example_array 30 = Some 2 /\
  sortedIndexOf 4 example_array 35 = Some (-1).
Proof.
  split; [vm_compute; lia | apply (scenarios 4); vm_compute; lia].
Defined.

Lemma sortedIndex_lower_bound_witness :
  sorted example_array /\
  (callDepth example_array <= 4)%nat /\
  exists i, sortedIndex 4 example_array 25 None = Some i /\
            0 <= i <= array_length example_array /\
            (forall j x, 0 <= j < i -> array_get example_array j = Some x ->
                         strictlyLess x 25) /\
            (forall j x, i <= j -> array_get example_array j = Some x ->
                         lte 25 x = true).
Proof.
  split; [reflexivity |]. split; [vm_compute; lia |].
  apply (sortedIndex_lower_bound example_array 25 4);
    [reflexivity | vm_compute; lia].
Defined.

Lemma sortedIndexOf_first_or_minus_one_witness :
  sorted example_array /\
  (callDepth example_array <= 4)%nat /\
  exists r i,
    sortedIndexOf 4 example_array 30 = Some r /\
    sortedIndex 4 example_array 30 None = Some i /\
    (~ In 30 example_array -> r = -1) /\
    (In 30 example_array -> firstOccurrence example_array 30 r) /\
    (array_get example_array i = Some 30 -> r = i) /\
    (array_get example_array i <> Some 30 -> r = -1).
Proof.
  split; [reflexivity |]. split; [vm_compute; lia |].
  apply (sortedIndexOf_first_or_minus_one example_array 30 4);
    [reflexivity | vm_compute; lia].
Defined.

Lemma sortedIndex_first_occurrence_witness :
  sorted example_array /\
  (1 <= occurrences example_array 30%Z)%nat /\
  (callDepth example_array <= 4)%nat /\
  (exists i, sortedIndex 4 example_array 30 None = Some i /\
             firstOccurrence example_array 30 i) /\
  (forall low high,
     array_get example_array (midPoint low high) = Some 30 ->
     newRange example_array 30 low high = (low, midPoint low high)).
Proof.
  split; [reflexivity |]. split; [vm_compute; lia |].
  split; [vm_compute; lia |].
  apply (sortedIndex_first_occurrence example_array 30 4);
    [reflexivity | vm_compute; lia | vm_compute; lia].
Defined.

Lemma sortedIndex_terminates_witness :
  0 < 5 /\
  snd (newRange example_array 30 0 5) - fst (newRange example_array 30 0 5)
    <= 5 - 0 - 1 /\
  (callDepth example_array <= 4)%nat /\
  (exists i, sortedIndex 4 example_array 30 None = Some i) /\
  0 <> 5 /\
  sortedIndex 4 example_array 30 (Some (0, 5)) =
  sortedIndex 3 example_array 30 (Some (newRange example_array 30 0 5)).
Proof.
  split; [lia |].
  split; [apply (proj1 (sortedIndex_terminates example_array 30) 0 5); lia |].
  split; [vm_compute; lia |].
  split;
    [apply (proj1 (proj2 (sortedIndex_terminates example_array 30)) 4%nat);
     vm_compute; lia |].
  split; [lia |].
  apply (proj2 (proj2 (proj2 (proj2 (sortedIndex_terminates example_array 30))))
           3%nat 0 5).
  lia.
Defined.

Lemma sortedIndex_in_range_witness :
  (callDepth [30; 10; 20] <= 3)%nat /\
  exists i, sortedIndex 3 [30; 10; 20] 15 None = Some i /\
            0 <= i <= array_length [30; 10; 20].
Proof.
  split; [vm_compute; lia |].
  apply (sortedIndex_in_range [30; 10; 20] 15 3). vm_compute; lia.
Defined.

Lemma empty_array_witness :
  (1 <= 1)%nat /\
  sortedIndex 1 [] 7 None = Some 0 /\
  sortedIndexOf 1 [] 7 = Some (-1).
Proof.
  split; [lia |]. apply (empty_array 7 1). lia.
Defined.

Lemma invocations_in_bounds_witness :
  In (0, 2) (invocations 4 example_array 30 None) /\
  (0 <= 0 <= 2 /\ 2 <= array_length example_array) /\
  (0 <> 2 ->
     0 < 2 /\
     0 <= midPoint 0 2 < 2 /\
     0 <= midPoint 0 2 < array_length example_array /\
     exists x, array_get example_array (midPoint 0 2) = Some x).
Proof.
  assert (Hin : In (0, 2) (invocations 4 example_array 30 None))
    by (right; left; reflexivity).
  split; [exact Hin |].
  apply (invocations_in_bounds example_array 30 4 0 2 Hin).
Defined.

Lemma sortedIndex_monotone_witness :
  sorted example_array /\
  lte 25 35 = true /\
  (callDepth example_array <= 4)%nat /\
  exists i j,
    sortedIndex 4 example_array 25 None = Some i /\
    sortedIndex 4 example_array 35 None = Some j /\
    i <= j.
Proof.
  split; [reflexivity |]. split; [reflexivity |]. split; [vm_compute; lia |].
  apply (sortedIndex_monotone example_array 25 35 4);
    [reflexivity | reflexivity | vm_compute; lia].
Defined.

(** ** Instances of the further theorems *)

Lemma sortedIndex_subrange_witness :
  sorted example_array /\ 0 <= 1 /\ 1 <= 4 /\
  4 <= array_length example_array /\ (rangeDepth 1 4 <= 3)%nat /\
  exists i,
    sortedIndex 3 example_array 30 (Some (1, 4)) = Some i /\
    1 <= i <= 4 /\
    (forall j x, 1 <= j < i -> array_get example_array j = Some x ->
                 strictlyLess x 30) /\
    (forall j x, i <= j < 4 -> array_get example_array j = Some x ->
                 lte 30 x = true).
Proof.
  assert (Hlen : 4 <= array_length example_array) by (vm_compute; discriminate).
  assert (Hfuel : (rangeDepth 1 4 <= 3)%nat) by (vm_compute; lia).
  split; [reflexivity |]. split; [lia |]. split; [lia |].
  split; [exact Hlen |]. split; [exact Hfuel |].
  apply (sortedIndex_subrange example_array 30 1 4 3);
    [reflexivity | lia | lia | exact Hlen | exact Hfuel].
Defined.



Lemma sortedIndex_at_most_all_witness :
  (forall x, In x unsorted_array -> lte 5 x = true) /\
  (callDepth unsorted_array <= 3)%nat /\
  sortedIndex 3 unsorted_array 5 None = Some 0.
Proof.
  assert (Hall : forall x, In x unsorted_array -> lte 5 x = true).
  { intros x [<- | [<- | [<- | []]]]; reflexivity. }
  assert (Hfuel : (callDepth unsorted_array <= 3)%nat) by (vm_compute; lia).
  split; [exact Hall |]. split; [exact Hfuel |].
  apply (sortedIndex_at_most_all unsorted_array 5 3 Hall Hfuel).
Defined.

Lemma sortedIndex_above_all_witness :
  (forall x, In x unsorted_array -> strictlyLess x 50) /\
  (callDepth unsorted_array <= 3)%nat /\
  sortedIndex 3 unsorted_array 50 None = Some (array_length unsorted_array) /\
  sortedIndexOf 3 unsorted_array 50 = Some (-1).
Proof.
  assert (Hall : forall x, In x unsorted_array -> strictlyLess x 50).
  { intros x [<- | [<- | [<- | []]]]; (split; [reflexivity | lia]). }
  assert (Hfuel : (callDepth unsorted_array <= 3)%nat) by (vm_compute; lia).
  split; [exact Hall |]. split; [exact Hfuel |].
  apply (sortedIndex_above_all unsorted_array 50 3 Hall Hfuel).
Defined.

Lemma sortedIndex_reads_range_only_witness :
  1 <= 3 /\
  (forall j, 1 <= j < 3 ->
             array_get [1; 20; 30; 99] j = array_get [7; 20; 30] j) /\
  sortedIndex 3 [1; 20; 30; 99] 25 (Some (1, 3)) =
  sortedIndex 3 [7; 20; 30] 25 (Some (1, 3)).
Proof.
  assert (Hsame : forall j, 1 <= j < 3 ->
                    array_get [1; 20; 30; 99] j = array_get [7; 20; 30] j).
  { intros j Hj. assert (Hcases : j = 1 \/ j = 2) by lia.
    destruct Hcases as [-> | ->]; reflexivity. }
  split; [lia |]. split; [exact Hsame |].
  apply (sortedIndex_reads_range_only [1; 20; 30; 99] [7; 20; 30] 25 1 3 3);
    [lia | exact Hsame].
Defined.

Lemma sortedIndex_partition_point_witness :
  partitioned [20; 10; 40; 30] 25 2 /\
  0 <= 2 <= array_length [20; 10; 40; 30] /\
  (callDepth [20; 10; 40; 30] <= 4)%nat /\
  sortedIndex 4 [20; 10; 40; 30] 25 None = Some 2.
Proof.
  assert (Hpart : partitioned [20; 10; 40; 30] 25 2).
  { split.
    - intros j x Hj Hx. assert (Hcases : j = 0 \/ j = 1) by lia.
      destruct Hcases as [-> | ->]; injection Hx as <-;
        (split; [reflexivity | lia]).
    - intros j x Hj Hx.
      pose proof (array_get_Some_bounds _ _ _ Hx) as Hb.
      assert (Hlen : array_length [20; 10; 40; 30] = 4) by reflexivity.
      assert (Hcases : j = 2 \/ j = 3) by lia.
      destruct Hcases as [-> | ->]; injection Hx as <-; reflexivity. }
  assert (Hk : 0 <= 2 <= array_length [20; 10; 40; 30])
    by (split; vm_compute; discriminate).
  assert (Hfuel : (callDepth [20; 10; 40; 30] <= 4)%nat) by (vm_compute; lia).
  split; [exact Hpart |]. split; [exact Hk |]. split; [exact Hfuel |].
  apply (sortedIndex_partition_point [20; 10; 40; 30] 25 2 4 Hpart Hk Hfuel).
Defined.

Lemma sortedIndex_monotone_any_array_witness :
  lte 15 25 = true /\
  (callDepth unsorted_array <= 3)%nat /\
  exists i j,
    sortedIndex 3 unsorted_array 15 None = Some i /\
    sortedIndex 3 unsorted_array 25 None = Some j /\
    i <= j.
Proof.
  assert (Hfuel : (callDepth unsorted_array <= 3)%nat) by (vm_compute; lia).
  split; [reflexivity |]. split; [exact Hfuel |].
  apply (sortedIndex_monotone_any_array unsorted_array 15 25 3);
    [reflexivity | exact Hfuel].
Defined.

Lemma sortedIndexOf_sound_witness :
  (callDepth unsorted_array <= 3)%nat /\
  exists r,
    sortedIndexOf 3 unsorted_array 10 = Some r /\
    (r = -1 \/
     (0 <= r < array_length unsorted_array /\
      array_get unsorted_array r = Some 10)).
Proof.
  assert (Hfuel : (callDepth unsorted_array <= 3)%nat) by (vm_compute; lia).
  split; [exact Hfuel |].
  apply (sortedIndexOf_sound unsorted_array 10 3 Hfuel).
Defined.

Lemma sortedIndex_counts_less_witness :
  sorted example_array /\
  (callDepth example_array <= 4)%nat /\
  sortedIndex 4 example_array 25 None = Some (countLess example_array 25).
Proof.
  assert (Hfuel : (callDepth example_array <= 4)%nat) by (vm_compute; lia).
  split; [reflexivity |]. split; [exact Hfuel |].
  apply (sortedIndex_counts_less example_array 25 4); [reflexivity | exact Hfuel].
Defined.

Lemma sortedIndex_insertion_sorted_witness :
  sorted example_array /\
  (callDepth example_array <= 4)%nat /\
  exists i,
    sortedIndex 4 example_array 25 None = Some i /\
    sorted (insertAt example_array i 25) /\
    array_length (insertAt example_array i 25) = array_length example_array + 1.
Proof.
  assert (Hfuel : (callDepth example_array <= 4)%nat) by (vm_compute; lia).
  split; [reflexivity |]. split; [exact Hfuel |].
  apply (sortedIndex_insertion_sorted example_array 25 4);
    [reflexivity | exact Hfuel].
Defined.

Lemma sortedIndexOf_after_insertion_witness :
  sorted example_array /\
  (callDepth example_array <= 4)%nat /\
  (callDepth (30%Z :: example_array) <= 4)%nat /\
  exists i,
    sortedIndex 4 example_array 30 None = Some i /\
    array_get (insertAt example_array i 30) i = Some 30 /\
    sortedIndex 4 (insertAt example_array i 30) 30 None = Some i /\
    sortedIndexOf 4 (insertAt example_array i 30) 30 = Some i.
Proof.
  assert (Hfuel : (callDepth example_array <= 4)%nat) by (vm_compute; lia).
  assert (Hfuel' : (callDepth (30%Z :: example_array) <= 4)%nat)
    by (vm_compute; lia).
  split; [reflexivity |]. split; [exact Hfuel |]. split; [exact Hfuel' |].
  apply (sortedIndexOf_after_insertion example_array 30 4 4);
    [reflexivity | exact Hfuel | exact Hfuel'].
Defined.


Lemma sortedIndex_subrange_clamps_witness :
  sorted example_array /\ 0 <= 3 /\ 3 <= 5 /\
  5 <= array_length example_array /\
  (callDepth example_array <= 4)%nat /\ (rangeDepth 3 5 <= 4)%nat /\
  exists g r,
    sortedIndex 4 example_array 15 None = Some g /\
    sortedIndex 4 example_array 15 (Some (3, 5)) = Some r /\
    r = Z.max 3 (Z.min g 5).
Proof.
  assert (Hlen : 5 <= array_length example_array) by (vm_compute; discriminate).
  assert (Hfuel : (callDepth example_array <= 4)%nat) by (vm_compute; lia).
  assert (Hrfuel : (rangeDepth 3 5 <= 4)%nat) by (vm_compute; lia).
  split; [reflexivity |]. split; [lia |]. split; [lia |].
  split; [exact Hlen |]. split; [exact Hfuel |]. split; [exact Hrfuel |].
  apply (sortedIndex_subrange_clamps example_array 15 3 5 4);
    [reflexivity | lia | lia | exact Hlen | exact Hfuel | exact Hrfuel].
Defined.
